(** * MetricsDisplay: the bounded, deduplicated metrics window

    A shallow embedding of the logic of the [MetricsDisplay] React
    component: the functional updater handed to [setMetrics], the
    [fetchMetrics] poll cycle with its [try]/[catch], and the
    [useEffect] that starts and stops the repeating timer. *)

From Stdlib Require Import ZArith NArith Floats.PrimFloat.
From stdpp Require Import gmap strings list.

Local Open Scope Z_scope.

(** ** Data model *)

(** A JavaScript [number] is an IEEE 754 double. *)
Definition number : Type := PrimFloat.float.

(** [interface Metrics]. *)
Record Metrics : Type := mkMetrics {
  block_height : number;
  btc_price : number;
  timestamp : string;
}.

(** [a === b] on two strings. *)
Definition strict_eq (a b : string) : bool := String.eqb a b.

(** ** The array methods used by the updater *)

Section Arrays.
Context {A : Type}.

(** [Array.prototype.findIndex]: the index of the first element that
    satisfies [p], and [-1] when there is none. *)
Fixpoint findIndex_from (p : A → bool) (i : Z) (l : list A) : Z :=
  match l with
  | [] => -1
  | x :: r => if p x then i else findIndex_from p (i + 1) r
  end.

Definition findIndex (p : A → bool) (l : list A) : Z :=
  findIndex_from p 0 l.

(** [Array.prototype.filter]: the callback receives the element, its
    index and the array being traversed. *)
Fixpoint filter_from (f : A → Z → list A → bool) (self : list A)
    (i : Z) (l : list A) : list A :=
  match l with
  | [] => []
  | x :: r =>
      if f x i self then x :: filter_from f self (i + 1) r
      else filter_from f self (i + 1) r
  end.

Definition array_filter (f : A → Z → list A → bool) (l : list A) : list A :=
  filter_from f l 0 l.

(** [Array.prototype.slice(start)] with the end left out: a negative
    [start] counts from the end and is clamped at [0], a positive one
    is clamped at the length. *)
Definition slice (start : Z) (l : list A) : list A :=
  let len := Z.of_nat (length l) in
  let k := if start <? 0 then Z.max (len + start) 0 else Z.min start len in
  drop (Z.to_nat k) l.
End Arrays.

(** ** The updater passed to [setMetrics] *)

(** The callback of the [filter] call: [index === self.findIndex(m =>
    m.timestamp === metric.timestamp)]. *)
Definition is_first_occurrence (metric : Metrics) (index : Z)
    (self : list Metrics) : bool :=
  index =? findIndex (λ m, strict_eq (timestamp m) (timestamp metric)) self.

Definition uniqueMetrics (combinedMetrics : list Metrics) : list Metrics :=
  array_filter is_first_occurrence combinedMetrics.

(** [(prevMetrics) => { ... return uniqueMetrics.slice(-10); }] applied
    to the previous window and to [response.data]. *)
Definition merge (prevMetrics data : list Metrics) : list Metrics :=
  let combinedMetrics := prevMetrics ++ data in
  slice (-10) (uniqueMetrics combinedMetrics).

(** ** The merge as the specification words it *)

(** Scan the sequence once and keep an element when its timestamp has not
    been met before. *)
Fixpoint spec_dedup (seen : list string) (l : list Metrics) : list Metrics :=
  match l with
  | [] => []
  | m :: r =>
      if bool_decide (timestamp m ∈ seen) then spec_dedup seen r
      else m :: spec_dedup (timestamp m :: seen) r
  end.

(** The last [n] elements, dropping from the front. *)
Definition spec_last (n : nat) (l : list Metrics) : list Metrics :=
  drop (length l - n) l.

Definition capacity : nat := 10.

Definition spec_merge (W S : list Metrics) : list Metrics :=
  spec_last capacity (spec_dedup [] (W ++ S)).

(** The entry with timestamp [t] that arrived earliest. *)
Fixpoint first_with (t : string) (l : list Metrics) : option Metrics :=
  match l with
  | [] => None
  | m :: r => if bool_decide (timestamp m = t) then Some m else first_with t r
  end.

(** The entries of a window that carry timestamp [t]. *)
Definition entries_for (t : string) (l : list Metrics) : list Metrics :=
  filter (λ m, timestamp m = t) l.

(** ** Sample data *)

Definition sample (t : string) (h p : number) : Metrics :=
  {| block_height := h; btc_price := p; timestamp := t |}.

Arguments sample t%_string (h p)%_float.

Definition t0_cached : Metrics := sample "t0" 799999 60000.
Definition t0_fresh : Metrics := sample "t0" 799999 99999.
Definition t1 : Metrics := sample "t1" 800000 60000.
Definition t1_fresh : Metrics := sample "t1" 800000 99999.
Definition t2 : Metrics := sample "t2" 800001 60010.
Definition t11 : Metrics := sample "t11" 800010 60100.
Definition t10_fresh : Metrics := sample "t10" 800009 99999.

(** Ten entries with the distinct timestamps [t1] to [t10]. *)
Definition window10 : list Metrics :=
  [ t1; t2;
    sample "t3" 800002 60020; sample "t4" 800003 60030;
    sample "t5" 800004 60040; sample "t6" 800005 60050;
    sample "t7" 800006 60060; sample "t8" 800007 60070;
    sample "t9" 800008 60080; sample "t10" 800009 60090 ].

(** ** Component state and the poll cycle *)

(** The two [useState] cells of the component. *)
Record Component : Type := mkComponent {
  metrics : list Metrics;
  error : option string;
}.

(** [useState<Metrics[]>([])] and [useState<string | null>(null)]. *)
Definition initial : Component := {| metrics := []; error := None |}.

Definition setMetrics (updater : list Metrics → list Metrics)
    (c : Component) : Component :=
  {| metrics := updater (metrics c); error := error c |}.

Definition setError (e : string) (c : Component) : Component :=
  {| metrics := metrics c; error := Some e |}.

(** How [await axios.get(...)] settles: with a response carrying
    [data], or by throwing. *)
Inductive response : Type :=
  | Fulfilled (data : list Metrics)
  | Rejected.

(** One run of [fetchMetrics], given how the request settled. *)
Definition fetchMetrics (r : response) (c : Component) : Component :=
  match r with
  | Fulfilled data => setMetrics (λ prevMetrics, merge prevMetrics data) c
  | Rejected => setError "Error fetching data" c
  end.

(** The component after a sequence of poll cycles, oldest first. *)
Definition run_cycles (rs : list response) (c : Component) : Component :=
  foldl (λ acc r, fetchMetrics r acc) c rs.

(** What the returned JSX shows of the state: the red paragraph of
    [{error && <p>...</p>}] (absent for [null] and for the empty string)
    and either the chart with its table or the loading line. *)
Inductive Body : Type :=
  | Loading
  | ChartAndTable (rows : list Metrics).

Definition render (c : Component) : option string * Body :=
  (match error c with
   | Some e => if strict_eq e "" then None else Some e
   | None => None
   end,
   if (0 <? Z.of_nat (length (metrics c))) then ChartAndTable (metrics c)
   else Loading).

(** ** The updater over a store of arrays *)

(** Arrays are objects: the updater receives references and every array
    method it calls returns a reference.  The store maps a reference to
    the array's contents; reading an unknown reference fails. *)
Definition loc : Type := positive.

Abbreviation Store := (gmap loc (list Metrics)).

Definition Eff (A : Type) : Type := Store → option (A * Store).

#[global] Instance eff_ret : MRet Eff := λ A a h, Some (a, h).

#[global] Instance eff_bind : MBind Eff := λ A B k m h,
  match m h with
  | Some (a, h') => k a h'
  | None => None
  end.

Definition read (l : loc) : Eff (list Metrics) :=
  λ h, match h !! l with
       | Some a => Some (a, h)
       | None => None
       end.

Definition alloc (a : list Metrics) : Eff loc :=
  λ h, let l := fresh (dom h) in Some (l, <[l := a]> h).

(** [[...p, ...d]] *)
Definition spread2 (p d : loc) : Eff loc :=
  a ← read p;
  b ← read d;
  alloc (a ++ b).

(** [l.filter(f)] *)
Definition filter_ref (f : Metrics → Z → list Metrics → bool) (l : loc) : Eff loc :=
  a ← read l;
  alloc (array_filter f a).

(** [l.slice(start)] *)
Definition slice_ref (start : Z) (l : loc) : Eff loc :=
  a ← read l;
  alloc (slice start a).

(** The updater, statement by statement. *)
Definition updater (prevMetrics data : loc) : Eff loc :=
  combinedMetrics ← spread2 prevMetrics data;
  uniqueMetrics ← filter_ref is_first_occurrence combinedMetrics;
  slice_ref (-10) uniqueMetrics.

(** Every array of [h] is still in [h'] with the same contents. *)
Definition preserved (h h' : Store) : Prop :=
  ∀ l a, h !! l = Some a → h' !! l = Some a.

(** ** The effect that drives polling *)

(** Timer callbacks: the component's [fetchMetrics], or some callback
    registered by other code on the page. *)
Inductive callback : Type :=
  | FetchMetrics
  | Foreign (tag : N).

#[global] Instance callback_eq_dec : EqDecision callback.
Proof. solve_decision. Defined.

Record timer : Type := mkTimer {
  cb : callback;
  period : N;
  due : N;
}.

(** The page's timer interface, idealised to a clock that advances one
    millisecond at a time and fires every interval exactly when it is
    due: the clock, the registered intervals by id, the next id to hand
    out, and the record of every callback invocation with its time,
    oldest first. *)
Record World : Type := mkWorld {
  clock : N;
  timers : list (N * timer);
  next_id : N;
  log : list (N * callback);
}.

Definition invoke (f : callback) (w : World) : World :=
  {| clock := clock w; timers := timers w; next_id := next_id w;
     log := log w ++ [(clock w, f)] |}.

(** [setInterval(f, delay)]: registers a repeating timer first due
    [delay] ms from now and returns its id. *)
Definition setInterval (f : callback) (delay : N) (w : World) : N * World :=
  (next_id w,
   {| clock := clock w;
      timers := timers w ++
        [(next_id w, {| cb := f; period := delay; due := clock w + delay |})];
      next_id := next_id w + 1;
      log := log w |}).

(** [clearInterval(id)] *)
Definition clearInterval (id : N) (w : World) : World :=
  {| clock := clock w;
     timers := filter (λ e, e.1 ≠ id) (timers w);
     next_id := next_id w;
     log := log w |}.

(** At time [now], a timer that is due fires and is set to its next
    period. *)
Definition fire (now : N) (e : N * timer) : list (N * callback) :=
  if (due e.2 <=? now)%N then [(now, cb e.2)] else [].

Definition rearm (now : N) (e : N * timer) : N * timer :=
  if (due e.2 <=? now)%N
  then (e.1, {| cb := cb e.2; period := period e.2; due := due e.2 + period e.2 |})
  else e.

(** One millisecond passes. *)
Definition tick (w : World) : World :=
  let now := (clock w + 1)%N in
  {| clock := now;
     timers := rearm now <$> timers w;
     next_id := next_id w;
     log := log w ++ (timers w ≫= fire now) |}.

Definition ticks (n : N) (w : World) : World := N.iter n tick w.

(** The body of [useEffect(() => { ... }, [])], run once when the
    component mounts; it yields the [intervalId] its cleanup closes
    over. *)
Definition effect (w : World) : N * World :=
  let w1 := invoke FetchMetrics w in
  setInterval FetchMetrics 10000 w1.

(** [() => clearInterval(intervalId)], run when the component unmounts. *)
Definition cleanup (intervalId : N) (w : World) : World :=
  clearInterval intervalId w.

(** The times at which [fetchMetrics] was called. *)
Definition fetch_calls (w : World) : list N :=
  (filter (λ e, e.2 = FetchMetrics) (log w)).*1.

(** Ids in use are below the next id, and the component's callback is
    not registered: the state of the page before the component mounts. *)
Definition unmounted (w : World) : Prop :=
  Forall (λ e, (e.1 < next_id w)%N ∧ cb e.2 ≠ FetchMetrics) (timers w).

(** A timer that has neither the id [id] nor the component's callback. *)
Definition foreign (id : N) (e : N * timer) : Prop :=
  e.1 ≠ id ∧ cb e.2 ≠ FetchMetrics.

(** The component's interval [id] is registered, next due at [d], and
    every other timer is foreign. *)
Definition polling (id d : N) (w : World) : Prop :=
  ∃ T, timers w = T ++ [(id, {| cb := FetchMetrics; period := 10000; due := d |})]
       ∧ Forall (foreign id) T.

(** Every registered timer is foreign: the component has none. *)
Definition idle (id : N) (w : World) : Prop :=
  Forall (foreign id) (timers w).

(** Two pages for the examples: a fresh one, and one on which other
    code has already registered a 3-second interval. *)
Definition fresh_page : World :=
  {| clock := 5; timers := []; next_id := 1; log := [] |}.

Definition busy_page : World :=
  {| clock := 1200;
     timers := [(4%N, {| cb := Foreign 7; period := 3000; due := 2000 |})];
     next_id := 5;
     log := [(200%N, Foreign 7)] |}.

(** Two stores for the examples. *)
Definition store_a : Store :=
  <[1%positive := [t1]]> (<[2%positive := [t1_fresh; t2]]> ∅).

Definition store_b : Store :=
  <[5%positive := [t1]]> (<[7%positive := [t1_fresh; t2]]>
    (<[1%positive := window10]> ∅)).

(** ** Histories of poll cycles *)

Definition is_rejected (r : response) : bool :=
  match r with
  | Rejected => true
  | Fulfilled _ => false
  end.

(** The [response.data] of the cycles that succeeded, oldest first. *)
Definition payloads (rs : list response) : list (list Metrics) :=
  omap (λ r, match r with Fulfilled data => Some data | Rejected => None end) rs.

(** The two invariants of a window. *)
Definition valid_window (W : list Metrics) : Prop :=
  NoDup (timestamp <$> W) ∧ (length W ≤ 10)%nat.

(** ** What the component draws *)

(** [timestamps] and [btcPrices].  [new Date(s).toLocaleString()] depends
    on the locale and the time zone of the browser; it is the parameter
    [toLocaleString]. *)
Definition timestamps (toLocaleString : string → string)
    (ms : list Metrics) : list string :=
  (λ m, toLocaleString (timestamp m)) <$> ms.

Definition btcPrices (ms : list Metrics) : list number :=
  (λ m, btc_price m) <$> ms.

Record Dataset : Type := mkDataset {
  label : string;
  data : list number;
  borderColor : string;
  backgroundColor : string;
  fill : bool;
}.

Record ChartData : Type := mkChartData {
  labels : list string;
  datasets : list Dataset;
}.

(** [priceChartData] *)
Definition priceChartData (toLocaleString : string → string)
    (ms : list Metrics) : ChartData :=
  {| labels := timestamps toLocaleString ms;
     datasets :=
       [ {| label := "BTC Price (USD)";
            data := btcPrices ms;
            borderColor := "#00c9ff";
            backgroundColor := "rgba(0, 201, 255, 0.2)";
            fill := true |} ] |}.

(** One [<tr>] of the table: its [key], its background and its three
    cells. *)
Record TableRow : Type := mkTableRow {
  key : Z;
  row_background : string;
  cell_time : string;
  cell_height : number;
  cell_price : number;
}.

(** [metrics.map((metric, idx) => <tr key={idx} ...>)] *)
Definition table_rows (toLocaleString : string → string)
    (ms : list Metrics) : list TableRow :=
  imap (λ idx metric,
          {| key := Z.of_nat idx;
             row_background :=
               if Z.of_nat idx mod 2 =? 0 then "#3b3b3b" else "#2b2b2b";
             cell_time := toLocaleString (timestamp metric);
             cell_height := block_height metric;
             cell_price := btc_price metric |}) ms.

(** ** Other timers on the page *)

(** The invocations of callbacks other than the component's. *)
Definition foreign_log (w : World) : list (N * callback) :=
  filter (λ e, e.2 ≠ FetchMetrics) (log w).

(** ** Requests in flight *)

(** What the continuation of [fetchMetrics] calls once the request has
    settled: [setMetrics] with the updater that merges [response.data],
    or [setError] with the message. *)
Inductive setter_call : Type :=
  | SetMetrics (data : list Metrics)
  | SetError (e : string).

Definition continuation (r : response) : setter_call :=
  match r with
  | Fulfilled data => SetMetrics data
  | Rejected => SetError "Error fetching data"
  end.

Definition apply_call (s : setter_call) (c : Component) : Component :=
  match s with
  | SetMetrics data => setMetrics (λ prevMetrics, merge prevMetrics data) c
  | SetError e => setError e c
  end.

(** The page with the view on it.  Every call of [fetchMetrics] in the
    world's record has issued one request; [settled] counts those whose
    [await] has returned.  [intervalId] is the id the cleanup closes
    over while the view is mounted.  [setter_calls] records each call a
    continuation made: its time, whether the view was still mounted, and
    the call. *)
Record Page : Type := mkPage {
  world : World;
  intervalId : option N;
  settled : nat;
  setter_calls : list (N * bool * setter_call);
}.

(** A page on which the view is not mounted and nothing is in flight. *)
Definition page_of (w : World) : Page :=
  {| world := w; intervalId := None;
     settled := length (fetch_calls w); setter_calls := [] |}.

Definition in_flight (p : Page) : nat :=
  length (fetch_calls (world p)) - settled p.

Inductive event : Type :=
  | Mount
  | Elapse (n : N)
  | Settle (r : response)
  | Unmount.

(** [Mount] runs the effect, [Unmount] its cleanup, [Elapse n] lets [n]
    milliseconds pass, and [Settle r] lets one request in flight settle
    as [r], upon which the continuation of [fetchMetrics] makes its
    call; there is nothing to settle when no request is in flight. *)
Definition step (p : Page) (e : event) : Page :=
  match e with
  | Mount =>
      match intervalId p with
      | Some _ => p
      | None =>
          {| world := (effect (world p)).2;
             intervalId := Some (effect (world p)).1;
             settled := settled p; setter_calls := setter_calls p |}
      end
  | Elapse n =>
      {| world := ticks n (world p); intervalId := intervalId p;
         settled := settled p; setter_calls := setter_calls p |}
  | Settle r =>
      if (settled p <? length (fetch_calls (world p)))%nat
      then {| world := world p; intervalId := intervalId p;
              settled := S (settled p);
              setter_calls := setter_calls p ++
                [(clock (world p), bool_decide (is_Some (intervalId p)),
                  continuation r)] |}
      else p
  | Unmount =>
      match intervalId p with
      | Some id =>
          {| world := cleanup id (world p); intervalId := None;
             settled := settled p; setter_calls := setter_calls p |}
      | None => p
      end
  end.

Definition run (es : list event) (p : Page) : Page := foldl step p es.

(** The responses of the [Settle] events of a history, in order. *)
Definition responses (es : list event) : list response :=
  omap (λ e, match e with Settle r => Some r | _ => None end) es.

(** The page after the view was mounted on [w] and lived through
    [es_live], and the page after it was then unmounted and [es_after]
    happened. *)
Definition lived (w : World) (es_live : list event) : Page :=
  run (Mount :: es_live) (page_of w).

Definition torn_down (w : World) (es_live es_after : list event) : Page :=
  run (Unmount :: es_after) (lived w es_live).

(** ** Facts about the array methods *)

Section ArrayFacts.
Context {A : Type}.
Implicit Types (p : A → bool) (l pre : list A) (i : Z).

Lemma findIndex_from_skip p i pre l :
  Forall (λ y, p y = false) pre →
  findIndex_from p i (pre ++ l) = findIndex_from p (i + Z.of_nat (length pre)) l.
Proof.
  intros Hpre. revert i.
  induction Hpre as [|y pre Hy _ IH]; intros i; cbn [app findIndex_from length].
  - f_equal. lia.
  - rewrite Hy, IH. f_equal. lia.
Qed.

Lemma findIndex_from_found p i pre l :
  Exists (λ y, p y = true) pre →
  i ≤ findIndex_from p i (pre ++ l) < i + Z.of_nat (length pre).
Proof.
  intros Hpre. revert i.
  induction pre as [|y pre IH]; intros i.
  - inversion Hpre.
  - cbn [app findIndex_from length]. destruct (p y) eqn:Hy; [lia|].
    apply Exists_cons in Hpre as [Hpre|Hpre]; [congruence|].
    specialize (IH Hpre (i + 1)). lia.
Qed.

Lemma slice_neg_drop (n : nat) l :
  (0 < n)%nat → slice (- Z.of_nat n) l = drop (length l - n) l.
Proof.
  intros Hn. unfold slice.
  rewrite (proj2 (Z.ltb_lt _ _)) by lia. f_equal. lia.
Qed.
End ArrayFacts.

(** ** The filter keeps first occurrences *)

Lemma strict_eq_true a b : strict_eq a b = true ↔ a = b.
Proof. apply String.eqb_eq. Qed.

Lemma strict_eq_false a b : strict_eq a b = false ↔ a ≠ b.
Proof. apply String.eqb_neq. Qed.

Lemma is_first_occurrence_at pre m r :
  is_first_occurrence m (Z.of_nat (length pre)) (pre ++ m :: r)
  = bool_decide (timestamp m ∉ timestamp <$> pre).
Proof.
  unfold is_first_occurrence, findIndex.
  set (p := λ x, strict_eq (timestamp x) (timestamp m)).
  case_bool_decide as Hin.
  - rewrite findIndex_from_skip.
    + simpl. unfold p at 1. rewrite (proj2 (strict_eq_true _ _) eq_refl).
      apply Z.eqb_refl.
    + apply Forall_forall. intros y Hy. apply strict_eq_false.
      intros Heq. apply Hin. rewrite <- Heq. by apply list_elem_of_fmap_2.
  - apply list_elem_of_fmap in Hin as (y & Heq & Hy).
    apply Z.eqb_neq.
    assert (Exists (λ x, p x = true) pre) as Hex.
    { apply Exists_exists. exists y. split; [done|]. by apply strict_eq_true. }
    pose proof (findIndex_from_found p 0 pre (m :: r) Hex). lia.
Qed.

Lemma filter_from_spec_dedup l : ∀ pre seen,
  (∀ t, t ∈ seen ↔ t ∈ timestamp <$> pre) →
  filter_from is_first_occurrence (pre ++ l) (Z.of_nat (length pre)) l
  = spec_dedup seen l.
Proof.
  induction l as [|m r IH]; intros pre seen Hseen; [done|].
  simpl. rewrite is_first_occurrence_at.
  replace (pre ++ m :: r) with ((pre ++ [m]) ++ r) by by rewrite <- app_assoc.
  replace (Z.of_nat (length pre) + 1) with (Z.of_nat (length (pre ++ [m])))
    by (rewrite length_app; simpl; lia).
  destruct (decide (timestamp m ∈ seen)) as [Hin|Hin].
  - rewrite (bool_decide_eq_true_2 _ Hin).
    rewrite bool_decide_eq_false_2 by (rewrite <- Hseen; auto).
    apply IH. intros t. rewrite fmap_app, elem_of_app, <- Hseen. simpl.
    rewrite list_elem_of_singleton. intuition congruence.
  - rewrite (bool_decide_eq_false_2 _ Hin).
    rewrite bool_decide_eq_true_2 by (by rewrite <- Hseen).
    f_equal. apply IH. intros t.
    rewrite fmap_app, elem_of_app, elem_of_cons, <- Hseen. simpl.
    rewrite list_elem_of_singleton. intuition congruence.
Qed.

Lemma uniqueMetrics_spec_dedup l : uniqueMetrics l = spec_dedup [] l.
Proof.
  unfold uniqueMetrics, array_filter.
  by apply (filter_from_spec_dedup l [] []).
Qed.

Lemma merge_spec_merge W S : merge W S = spec_merge W S.
Proof.
  unfold merge, spec_merge, spec_last, capacity.
  rewrite uniqueMetrics_spec_dedup.
  apply (slice_neg_drop 10). lia.
Qed.

(** ** Facts about the scan *)

Lemma spec_dedup_sublist l : ∀ seen, spec_dedup seen l `sublist_of` l.
Proof.
  induction l as [|m r IH]; intros seen; simpl; [constructor|].
  case_bool_decide; [apply sublist_cons | apply sublist_skip]; apply IH.
Qed.

Lemma spec_dedup_elem l : ∀ seen m,
  m ∈ spec_dedup seen l →
  (timestamp m ∉ seen) ∧ first_with (timestamp m) l = Some m.
Proof.
  induction l as [|h r IH]; intros seen m; simpl.
  - by intros ?%elem_of_nil.
  - case_bool_decide as Hseen.
    + intros [Hm Hfirst]%IH. split; [done|].
      rewrite bool_decide_eq_false_2; [done|congruence].
    + intros [->|Hm]%elem_of_cons.
      * split; [done|]. by rewrite bool_decide_eq_true_2.
      * apply IH in Hm as [Hm Hfirst]. apply not_elem_of_cons in Hm as [Hne Hm].
        split; [done|]. rewrite bool_decide_eq_false_2; [done|congruence].
Qed.

Lemma spec_dedup_NoDup l : ∀ seen, NoDup (timestamp <$> spec_dedup seen l).
Proof.
  induction l as [|h r IH]; intros seen; simpl; [constructor|].
  case_bool_decide; [apply IH|].
  simpl. apply NoDup_cons. split; [|apply IH].
  intros (m & Heq & Hm)%list_elem_of_fmap.
  apply spec_dedup_elem in Hm as [Hm _]. apply Hm. rewrite Heq. left.
Qed.

Lemma spec_dedup_covers l : ∀ seen t,
  t ∈ timestamp <$> l → t ∈ seen ∨ t ∈ timestamp <$> spec_dedup seen l.
Proof.
  induction l as [|h r IH]; intros seen t; simpl.
  - by intros ?%elem_of_nil.
  - intros [->|Ht]%elem_of_cons; case_bool_decide as Hseen.
    + by left.
    + right. left.
    + by apply IH.
    + apply (IH (timestamp h :: seen)) in Ht as [[->|Ht]%elem_of_cons|Ht].
      * right. left.
      * by left.
      * right. by right.
Qed.

Lemma spec_dedup_replay seen S :
  Forall (λ m, timestamp m ∈ seen) S → spec_dedup seen S = [].
Proof.
  induction 1 as [|m S Hm _ IH]; simpl; [done|].
  by rewrite bool_decide_eq_true_2.
Qed.

Lemma spec_dedup_fixed W : ∀ seen S,
  NoDup (timestamp <$> W) →
  (∀ t, t ∈ timestamp <$> W → t ∉ seen) →
  Forall (λ m, timestamp m ∈ seen ∨ timestamp m ∈ timestamp <$> W) S →
  spec_dedup seen (W ++ S) = W.
Proof.
  induction W as [|h W IH]; intros seen S Hnd Hfresh HS; simpl.
  - apply spec_dedup_replay. eapply Forall_impl; [exact HS|].
    simpl. intros m [?|?%elem_of_nil]; done.
  - simpl in Hnd. apply NoDup_cons in Hnd as [Hh Hnd].
    rewrite bool_decide_eq_false_2 by (apply Hfresh; left).
    f_equal. apply IH; [done| |].
    + intros t Ht [->|Hs]%elem_of_cons; [done|].
      apply (Hfresh t); [by right|done].
    + eapply Forall_impl; [exact HS|]. simpl.
      intros m [?|[->|?]%elem_of_cons].
      * left. by right.
      * left. left.
      * by right.
Qed.

Lemma spec_dedup_id W seen :
  NoDup (timestamp <$> W) →
  (∀ t, t ∈ timestamp <$> W → t ∉ seen) →
  spec_dedup seen W = W.
Proof.
  intros Hnd Hfresh.
  pose proof (spec_dedup_fixed W seen [] Hnd Hfresh (Forall_nil_2 _)) as Hfix.
  by rewrite app_nil_r in Hfix.
Qed.





Lemma first_with_is_Some t l :
  t ∈ timestamp <$> l → is_Some (first_with t l).
Proof.
  induction l as [|h r IH]; simpl.
  - by intros ?%elem_of_nil.
  - intros [->|Ht]%elem_of_cons.
    + by rewrite bool_decide_eq_true_2.
    + case_bool_decide; [done|by apply IH].
Qed.

Lemma merge_unfold W S :
  merge W S = drop (length (spec_dedup [] (W ++ S)) - 10) (spec_dedup [] (W ++ S)).
Proof. by rewrite merge_spec_merge. Qed.

Lemma merge_NoDup W S : NoDup (timestamp <$> merge W S).
Proof.
  rewrite merge_unfold, fmap_drop.
  eapply sublist_NoDup; [apply spec_dedup_NoDup|apply sublist_drop].
Qed.

Lemma merge_elem W S m :
  m ∈ merge W S → first_with (timestamp m) (W ++ S) = Some m.
Proof.
  rewrite merge_unfold. intros Hm.
  eapply elem_of_sublist in Hm; [|apply sublist_drop].
  by apply spec_dedup_elem in Hm as [_ ?].
Qed.

(** ** Results *)

(** C1. For every window [W] and sample sequence [S], [merge W S] is the
    concatenation of [W] and [S], deduplicated by timestamp keeping first
    occurrences, cut to its last 10 elements.  In particular a window of
    10 distinct entries merged with one new entry loses its oldest entry
    and gains the new one at the end. *)
Theorem merge_refines_spec :
  (∀ W S, merge W S = spec_merge W S) ∧
  (∀ W s, length W = 10%nat → NoDup (timestamp <$> W) →
     timestamp s ∉ timestamp <$> W →
     merge W [s] = drop 1 W ++ [s]).
Proof.
  split; [apply merge_spec_merge|].
  intros W s Hlen Hnd Hs.
  rewrite merge_unfold.
  assert (spec_dedup [] (W ++ [s]) = W ++ [s]) as ->.
  { apply spec_dedup_id.
    - rewrite fmap_app. apply NoDup_app. split_and!; [done| |apply NoDup_singleton].
      intros t Ht ->%list_elem_of_singleton. done.
    - intros t _. apply not_elem_of_nil. }
  rewrite length_app, Hlen.
  destruct W as [|w W]; [done|]. reflexivity.
Qed.

Lemma merge_refines_spec_witness :
  length window10 = 10%nat ∧ NoDup (timestamp <$> window10) ∧
  (timestamp t11 ∉ timestamp <$> window10) ∧
  merge window10 [t11] = drop 1 window10 ++ [t11].
Proof.
  assert (NoDup (timestamp <$> window10)) as Hnd
    by (apply (bool_decide_unpack _); vm_compute; exact I).
  assert (timestamp t11 ∉ timestamp <$> window10) as Hnew
    by (apply (bool_decide_unpack _); vm_compute; exact I).
  split_and!; [reflexivity|exact Hnd|exact Hnew|].
  exact (proj2 merge_refines_spec window10 t11 eq_refl Hnd Hnew).
Defined.




(** C3. For every window and every sample sequence, with no precondition
    on either, the merged window has at most 10 elements. *)
Theorem merge_length_le_10 (W S : list Metrics) :
  (length (merge W S) ≤ 10)%nat.
Proof.
  unfold merge, slice. rewrite length_drop. simpl. lia.
Qed.

(** C4. Replaying samples whose timestamps are all in the window leaves a
    window that satisfies the invariants (distinct timestamps, at most 10
    entries) as it was. *)
Theorem merge_replay_idempotent (W S : list Metrics) :
  NoDup (timestamp <$> W) → (length W ≤ 10)%nat →
  Forall (λ m, timestamp m ∈ timestamp <$> W) S →
  merge W S = W.
Proof.
  intros Hnd Hlen HS. rewrite merge_unfold.
  rewrite spec_dedup_fixed; [| done | | ].
  - replace (length W - 10)%nat with 0%nat by lia. apply drop_0.
  - intros t _. apply not_elem_of_nil.
  - eapply Forall_impl; [exact HS|]. simpl. auto.
Qed.

Lemma merge_replay_idempotent_witness :
  merge [t1; t2] [t2; t1_fresh; t2] = [t1; t2].
Proof.
  apply (merge_replay_idempotent [t1; t2] [t2; t1_fresh; t2]).
  - apply (bool_decide_unpack _). vm_compute. exact I.
  - simpl. lia.
  - apply (bool_decide_unpack _). vm_compute. exact I.
Defined.

(** C5. The merged window lists its samples in the order in which they
    stand in the concatenation of window and new samples; it is not sorted
    by timestamp: two samples with different timestamps stay in arrival
    order whichever timestamp is the smaller. *)
Theorem merge_preserves_arrival_order :
  (∀ W S, merge W S `sublist_of` W ++ S) ∧
  (∀ a b, timestamp a ≠ timestamp b → merge [a] [b] = [a; b]).
Proof.
  split.
  - intros W S. rewrite merge_unfold.
    etrans; [apply sublist_drop|apply spec_dedup_sublist].
  - intros a b Hne. rewrite merge_unfold. simpl.
    rewrite bool_decide_eq_false_2; [done|].
    intros [Heq|[]%elem_of_nil]%elem_of_cons. congruence.
Qed.

Lemma merge_preserves_arrival_order_witness :
  timestamp t2 ≠ timestamp t1 ∧ merge [t2] [t1] = [t2; t1].
Proof.
  assert (timestamp t2 ≠ timestamp t1) as Hne by discriminate.
  split; [exact Hne|].
  exact (proj2 merge_preserves_arrival_order t2 t1 Hne).
Defined.

(** C9. Whatever the input window, even one with repeated timestamps or
    more than 10 entries, the merged window has pairwise distinct
    timestamps and at most 10 entries. *)
Theorem merge_restores_invariants (W S : list Metrics) :
  NoDup (timestamp <$> merge W S) ∧ (length (merge W S) ≤ 10)%nat.
Proof.
  split; [apply merge_NoDup|].
  rewrite merge_unfold, length_drop. lia.
Qed.

(** ** The poll cycle *)

Lemma run_cycles_keeps_message rs : ∀ c,
  error c = Some "Error fetching data" →
  error (run_cycles rs c) = Some "Error fetching data".
Proof.
  induction rs as [|r rs IH]; intros c Hc; [done|].
  simpl. apply IH. by destruct r.
Qed.

(** C6. When the request fails, the cycle leaves the window as it was and
    sets the error to a fixed message, which the rendered view shows next
    to the unchanged chart and table. *)
Theorem fetch_failure_keeps_window (c : Component) :
  metrics (fetchMetrics Rejected c) = metrics c ∧
  error (fetchMetrics Rejected c) = Some "Error fetching data" ∧
  render (fetchMetrics Rejected c) = (Some "Error fetching data", (render c).2).
Proof. by split_and!. Qed.

(** C10. A successful cycle leaves the error as it is, so once a failed
    cycle has set the message it stays set, and stays rendered, through
    every later cycle, successful or not. *)
Theorem error_never_cleared :
  (∀ data c, error (fetchMetrics (Fulfilled data) c) = error c) ∧
  (∀ rs c, error (run_cycles rs (fetchMetrics Rejected c))
           = Some "Error fetching data") ∧
  (∀ rs c, (render (run_cycles rs (fetchMetrics Rejected c))).1
           = Some "Error fetching data").
Proof.
  split; [done|].
  assert (∀ rs c, error (run_cycles rs (fetchMetrics Rejected c))
                  = Some "Error fetching data") as Herr
    by (intros; by apply run_cycles_keeps_message).
  split; [exact Herr|].
  intros rs c. unfold render. by rewrite Herr.
Qed.

(** ** The updater on the store *)

Lemma preserved_trans h1 h2 h3 :
  preserved h1 h2 → preserved h2 h3 → preserved h1 h3.
Proof. intros H12 H23 l a Hl. by apply H23, H12. Qed.

Lemma fresh_unused (h : Store) : h !! fresh (dom h) = None.
Proof. apply not_elem_of_dom, is_fresh. Qed.

Lemma preserved_alloc (h : Store) a : preserved h (<[fresh (dom h) := a]> h).
Proof.
  intros l b Hl. rewrite lookup_insert_ne; [done|].
  intros <-. by rewrite fresh_unused in Hl.
Qed.

Lemma read_then_alloc (g : list Metrics → list Metrics) l a (h : Store) :
  h !! l = Some a →
  (read l ≫= λ x, alloc (g x)) h
  = Some (fresh (dom h), <[fresh (dom h) := g a]> h).
Proof. intros Hl. unfold mbind, eff_bind, read, alloc. by rewrite Hl. Qed.

Lemma spread2_spec p d W S (h : Store) :
  h !! p = Some W → h !! d = Some S →
  spread2 p d h = Some (fresh (dom h), <[fresh (dom h) := W ++ S]> h).
Proof.
  intros Hp Hd. unfold spread2, mbind, eff_bind, read, alloc.
  by rewrite Hp, Hd.
Qed.

Lemma updater_spec (h : Store) (prevMetrics data : loc) (W S : list Metrics) :
  h !! prevMetrics = Some W → h !! data = Some S →
  ∃ r h', updater prevMetrics data h = Some (r, h') ∧
    h !! r = None ∧ h' !! r = Some (merge W S) ∧ preserved h h'.
Proof.
  intros Hp Hd. unfold updater.
  unfold mbind at 1, eff_bind at 1. rewrite (spread2_spec _ _ _ _ _ Hp Hd).
  set (c := fresh (dom h)). set (h1 := <[c := W ++ S]> h).
  unfold mbind at 1, eff_bind at 1.
  unfold filter_ref. rewrite (read_then_alloc _ c (W ++ S)) by apply lookup_insert_eq.
  set (u := fresh (dom h1)). set (h2 := <[u := _]> h1).
  unfold slice_ref. rewrite (read_then_alloc _ u (uniqueMetrics (W ++ S)))
    by apply lookup_insert_eq.
  set (r := fresh (dom h2)).
  assert (preserved h h2) as H02.
  { eapply preserved_trans; apply preserved_alloc. }
  eexists _, _. split; [done|]. split_and!.
  - destruct (h !! r) as [a|] eqn:Hr; [|done].
    apply H02 in Hr. unfold r in Hr. by rewrite (fresh_unused h2) in Hr.
  - by rewrite lookup_insert_eq.
  - eapply preserved_trans; [exact H02|apply preserved_alloc].
Qed.

(** C7. The updater changes no array that exists when it is called: it
    returns a new array, and the contents of that array are determined by
    the contents of its two arguments alone, so two runs on equal contents
    give equal contents, whatever else the two stores hold. *)
Theorem updater_pure_deterministic (h1 h2 : Store) (p1 d1 p2 d2 : loc)
    (W S : list Metrics) :
  h1 !! p1 = Some W → h1 !! d1 = Some S →
  h2 !! p2 = Some W → h2 !! d2 = Some S →
  ∃ r1 h1' r2 h2',
    updater p1 d1 h1 = Some (r1, h1') ∧ updater p2 d2 h2 = Some (r2, h2') ∧
    h1' !! r1 = Some (merge W S) ∧ h2' !! r2 = Some (merge W S) ∧
    h1 !! r1 = None ∧ h2 !! r2 = None ∧
    preserved h1 h1' ∧ preserved h2 h2'.
Proof.
  intros Hp1 Hd1 Hp2 Hd2.
  destruct (updater_spec h1 p1 d1 W S Hp1 Hd1) as (r1 & h1' & ? & ? & ? & ?).
  destruct (updater_spec h2 p2 d2 W S Hp2 Hd2) as (r2 & h2' & ? & ? & ? & ?).
  by exists r1, h1', r2, h2'.
Qed.

Lemma updater_pure_deterministic_witness :
  ∃ r1 h1' r2 h2',
    updater 1%positive 2%positive store_a = Some (r1, h1') ∧
    updater 5%positive 7%positive store_b = Some (r2, h2') ∧
    h1' !! r1 = Some (merge [t1] [t1_fresh; t2]) ∧
    h2' !! r2 = Some (merge [t1] [t1_fresh; t2]) ∧
    store_a !! r1 = None ∧ store_b !! r2 = None ∧
    preserved store_a h1' ∧ preserved store_b h2'.
Proof.
  apply (updater_pure_deterministic store_a store_b
           1%positive 2%positive 5%positive 7%positive [t1] [t1_fresh; t2]);
    reflexivity.
Defined.

(** ** The timer *)

Section Timer.
Variable id : N.
Implicit Types (w : World) (T : list (N * timer)).

Lemma foreign_fire_silent now T :
  Forall (foreign id) T →
  filter (λ e, e.2 = FetchMetrics) (T ≫= fire now) = [].
Proof.
  induction 1 as [|e T [_ He] _ IH]; [done|].
  rewrite bind_cons, filter_app, IH, app_nil_r.
  unfold fire. destruct (due e.2 <=? now)%N; [|done].
  by rewrite filter_cons_False.
Qed.

Lemma foreign_rearm now T :
  Forall (foreign id) T → Forall (foreign id) (rearm now <$> T).
Proof.
  intros HT. apply Forall_fmap. eapply Forall_impl; [exact HT|].
  intros e He. unfold rearm, foreign in *. simpl. by destruct (due e.2 <=? now)%N.
Qed.

Lemma tick_polling d w :
  polling id d w →
  clock (tick w) = (clock w + 1)%N ∧
  if (d <=? clock w + 1)%N
  then polling id (d + 10000) (tick w) ∧
       fetch_calls (tick w) = fetch_calls w ++ [(clock w + 1)%N]
  else polling id d (tick w) ∧ fetch_calls (tick w) = fetch_calls w.
Proof.
  intros (T & HT & HF). split; [done|].
  assert (fetch_calls (tick w) = fetch_calls w ++
    (filter (λ e, e.2 = FetchMetrics)
       (fire (clock w + 1) (id, mkTimer FetchMetrics 10000 d))).*1) as Hcalls.
  { unfold fetch_calls, tick. simpl. rewrite HT.
    rewrite bind_app, !filter_app, (foreign_fire_silent _ _ HF).
    by rewrite fmap_app, bind_cons, app_nil_r. }
  assert (timers (tick w) = (rearm (clock w + 1) <$> T) ++
    [rearm (clock w + 1) (id, mkTimer FetchMetrics 10000 d)]) as Htimers.
  { unfold tick. simpl. by rewrite HT, fmap_app. }
  pose proof (foreign_rearm (clock w + 1) T HF) as HF'.
  rewrite Hcalls. unfold polling. rewrite Htimers.
  unfold fire, rearm. simpl.
  destruct (d <=? clock w + 1)%N; (split; [by eexists|]).
  - by rewrite filter_cons_True.
  - by rewrite app_nil_r.
Qed.

Lemma ticks_succ n w : ticks (N.succ n) w = tick (ticks n w).
Proof. apply N.iter_succ. Qed.

Lemma ticks_add n m w : ticks (n + m) w = ticks n (ticks m w).
Proof. apply N.iter_add. Qed.

Lemma ticks_waiting n : ∀ d w,
  polling id d w → (clock w + n < d)%N →
  polling id d (ticks n w) ∧ clock (ticks n w) = (clock w + n)%N ∧
  fetch_calls (ticks n w) = fetch_calls w.
Proof.
  induction n as [|n IH] using N.peano_ind; intros d w Hpoll Hlt.
  - split_and!; [done|simpl; lia|done].
  - destruct (IH d w Hpoll) as (Hpoll' & Hclock & Hcalls); [lia|].
    rewrite ticks_succ.
    destruct (tick_polling d _ Hpoll') as [Hclock' Hstep].
    rewrite (proj2 (N.leb_gt _ _)) in Hstep by lia.
    destruct Hstep as [Hpoll'' Hcalls'].
    split_and!; [done|lia|congruence].
Qed.

Lemma ticks_period w :
  polling id (clock w + 10000) w →
  polling id (clock (ticks 10000 w) + 10000) (ticks 10000 w) ∧
  clock (ticks 10000 w) = (clock w + 10000)%N ∧
  fetch_calls (ticks 10000 w) = fetch_calls w ++ [(clock w + 10000)%N].
Proof.
  intros Hpoll.
  replace (ticks 10000 w) with (tick (ticks 9999 w))
    by (by rewrite <- ticks_succ).
  destruct (ticks_waiting 9999 _ w Hpoll) as (Hpoll' & Hclock & Hcalls); [lia|].
  destruct (tick_polling _ _ Hpoll') as [Hclock' Hstep].
  rewrite (proj2 (N.leb_le _ _)) in Hstep by lia.
  destruct Hstep as [Hpoll'' Hcalls'].
  rewrite Hcalls', Hcalls, Hclock', Hclock.
  replace (clock w + 9999 + 1)%N with (clock w + 10000)%N by lia.
  by split_and!.
Qed.

Lemma ticks_periods (k : nat) : ∀ w,
  polling id (clock w + 10000) w →
  polling id (clock (ticks (10000 * N.of_nat k) w) + 10000)
    (ticks (10000 * N.of_nat k) w) ∧
  clock (ticks (10000 * N.of_nat k) w) = (clock w + 10000 * N.of_nat k)%N ∧
  fetch_calls (ticks (10000 * N.of_nat k) w)
  = fetch_calls w ++ ((λ j, clock w + 10000 * N.of_nat j)%N <$> seq 1 k).
Proof.
  induction k as [|k IH]; intros w Hpoll.
  - simpl. rewrite N.add_0_r, app_nil_r. by split_and!.
  - destruct (IH w Hpoll) as (Hpoll' & Hclock & Hcalls).
    replace (10000 * N.of_nat (S k))%N with (10000 + 10000 * N.of_nat k)%N by lia.
    rewrite ticks_add.
    destruct (ticks_period _ Hpoll') as (Hpoll'' & Hclock' & Hcalls').
    split_and!; [done|lia|].
    rewrite Hcalls', Hcalls, Hclock, seq_S, fmap_app, <- app_assoc.
    do 2 f_equal. simpl. f_equal. lia.
Qed.

Lemma ticks_polling n : ∀ d w,
  polling id d w → ∃ d', polling id d' (ticks n w).
Proof.
  induction n as [|n IH] using N.peano_ind; intros d w Hpoll; [by exists d|].
  destruct (IH d w Hpoll) as [d' Hpoll'].
  rewrite ticks_succ.
  destruct (tick_polling d' _ Hpoll') as [_ Hstep].
  destruct (d' <=? _)%N; destruct Hstep; eauto.
Qed.

Lemma cleanup_idle d w :
  polling id d w →
  idle id (cleanup id w) ∧ fetch_calls (cleanup id w) = fetch_calls w.
Proof.
  intros (T & HT & HF). split; [|done].
  unfold idle, cleanup, clearInterval. simpl. rewrite HT.
  apply Forall_forall. intros e [Hid He]%list_elem_of_filter.
  apply elem_of_app in He as [He| ->%list_elem_of_singleton]; [|done].
  by apply (proj1 (Forall_forall _ _) HF).
Qed.

Lemma tick_idle w :
  idle id w → idle id (tick w) ∧ fetch_calls (tick w) = fetch_calls w.
Proof.
  intros Hidle. split; [by apply foreign_rearm|].
  unfold fetch_calls, tick. simpl.
  by rewrite filter_app, (foreign_fire_silent _ _ Hidle), app_nil_r.
Qed.

Lemma ticks_idle n : ∀ w,
  idle id w → idle id (ticks n w) ∧ fetch_calls (ticks n w) = fetch_calls w.
Proof.
  induction n as [|n IH] using N.peano_ind; intros w Hidle; [done|].
  destruct (IH w Hidle) as [Hidle' Hcalls].
  rewrite ticks_succ. destruct (tick_idle _ Hidle') as [? ?].
  split; [done|congruence].
Qed.
End Timer.

Lemma effect_polling w :
  unmounted w →
  (effect w).1 = next_id w ∧
  polling (next_id w) (clock w + 10000) (effect w).2 ∧
  clock (effect w).2 = clock w ∧
  fetch_calls (effect w).2 = fetch_calls w ++ [clock w].
Proof.
  intros Hw. split_and!; [done| |done|].
  - exists (timers w). split; [done|].
    eapply Forall_impl; [exact Hw|]. intros e [Hlt Hcb]. split; [lia|done].
  - unfold fetch_calls, effect, invoke. simpl.
    by rewrite filter_app, fmap_app.
Qed.

(** Mounting the component calls [fetchMetrics] at once and then at
    every multiple of 10 seconds after the mount, and at no other time.
    Once the cleanup has run, at whatever moment, the component has no
    timer left and [fetchMetrics] is not called again however long the
    page lives. *)
Lemma poller_schedule (w : World) (k : nat) (r n m : N) :
  unmounted w → (r < 10000)%N →
  fetch_calls (ticks (10000 * N.of_nat k + r) (effect w).2)
  = fetch_calls w ++ ((λ j, clock w + 10000 * N.of_nat j)%N <$> seq 0 (S k)) ∧
  idle (effect w).1 (ticks m (cleanup (effect w).1 (ticks n (effect w).2))) ∧
  fetch_calls (ticks m (cleanup (effect w).1 (ticks n (effect w).2)))
  = fetch_calls (ticks n (effect w).2).
Proof.
  intros Hw Hr.
  destruct (effect_polling w Hw) as (-> & Hpoll & Hclock & Hcalls).
  split.
  - rewrite <- Hclock in Hpoll.
    destruct (ticks_periods _ k _ Hpoll) as (Hpoll' & Hclock' & Hcalls').
    rewrite N.add_comm, ticks_add.
    destruct (ticks_waiting _ r _ _ Hpoll') as (_ & _ & ->); [lia|].
    rewrite Hcalls', Hcalls, Hclock, <- app_assoc. f_equal.
    simpl. f_equal. f_equal. lia.
  - destruct (ticks_polling _ n _ _ Hpoll) as [d Hpoll'].
    destruct (cleanup_idle _ _ _ Hpoll') as [Hidle Hcalls'].
    destruct (ticks_idle _ m _ Hidle) as [Hidle' Hcalls''].
    split; [done|congruence].
Qed.

Lemma poller_schedule_witness :
  fetch_calls (ticks (10000 * N.of_nat 2 + 5000) (effect busy_page).2)
  = fetch_calls busy_page
    ++ ((λ j, clock busy_page + 10000 * N.of_nat j)%N <$> seq 0 3) ∧
  idle (effect busy_page).1
    (ticks 30000 (cleanup (effect busy_page).1 (ticks 12000 (effect busy_page).2))) ∧
  fetch_calls (ticks 30000 (cleanup (effect busy_page).1 (ticks 12000 (effect busy_page).2)))
  = fetch_calls (ticks 12000 (effect busy_page).2).
Proof.
  apply (poller_schedule busy_page 2 5000 12000 30000).
  - constructor; [split; [simpl; lia|discriminate]|constructor].
  - lia.
Defined.

(** ** Scenarios *)

Example scenario_A : merge [] [t1; t2] = [t1; t2].
Proof. reflexivity. Qed.

Example scenario_B : merge [t1] [t1_fresh; t2] = [t1; t2].
Proof. reflexivity. Qed.

Example scenario_C :
  timestamp <$> merge window10 [t11]
  = ["t2"; "t3"; "t4"; "t5"; "t6"; "t7"; "t8"; "t9"; "t10"; "t11"].
Proof. reflexivity. Qed.

Example scenario_D :
  fetchMetrics Rejected (fetchMetrics (Fulfilled window10) initial)
  = {| metrics := window10; error := Some "Error fetching data" |}.
Proof. reflexivity. Qed.

Example fresh_page_calls :
  fetch_calls (ticks 25000 (effect fresh_page).2) = [5; 10005; 20005]%N.
Proof. vm_compute. reflexivity. Qed.

Example busy_page_calls_after_cleanup :
  fetch_calls (ticks 30000 (cleanup (effect busy_page).1 (ticks 12000 (effect busy_page).2)))
  = [1200; 11200]%N.
Proof. vm_compute. reflexivity. Qed.

(** ** More about the merge *)

Lemma spec_dedup_ext l : ∀ s1 s2,
  (∀ t, t ∈ s1 ↔ t ∈ s2) → spec_dedup s1 l = spec_dedup s2 l.
Proof.
  induction l as [|m r IH]; intros s1 s2 Hs; simpl; [done|].
  rewrite (bool_decide_ext _ _ (Hs (timestamp m))).
  case_bool_decide; [by apply IH|].
  f_equal. apply IH. intros t. by rewrite !elem_of_cons, Hs.
Qed.

Lemma spec_dedup_app l1 : ∀ seen l2,
  spec_dedup seen (l1 ++ l2)
  = spec_dedup seen l1 ++ spec_dedup ((timestamp <$> l1) ++ seen) l2.
Proof.
  induction l1 as [|m r IH]; intros seen l2; simpl; [done|].
  case_bool_decide as Hm.
  - rewrite IH. f_equal. apply spec_dedup_ext. intros t.
    rewrite elem_of_cons, !elem_of_app. split; [auto|].
    intros [->|?]; auto.
  - rewrite IH. simpl. do 2 f_equal. apply spec_dedup_ext. intros t.
    rewrite elem_of_cons, !elem_of_app, elem_of_cons. tauto.
Qed.

Lemma spec_dedup_fresh_tail W S :
  NoDup (timestamp <$> S) →
  Forall (λ m, timestamp m ∉ timestamp <$> W) S →
  spec_dedup [] (W ++ S) = spec_dedup [] W ++ S.
Proof.
  intros Hnd Hfresh. rewrite spec_dedup_app. f_equal.
  apply spec_dedup_id; [done|].
  intros t (m & -> & Hm)%list_elem_of_fmap. rewrite app_nil_r.
  by apply (proj1 (Forall_forall _ _) Hfresh).
Qed.

Lemma merge_length W S :
  length (merge W S) = (length (uniqueMetrics (W ++ S)) `min` 10)%nat.
Proof.
  rewrite merge_unfold, uniqueMetrics_spec_dedup, length_drop. lia.
Qed.

Lemma merge_short W S :
  (length (uniqueMetrics (W ++ S)) ≤ 10)%nat →
  merge W S = uniqueMetrics (W ++ S).
Proof.
  intros Hlen. rewrite merge_unfold, <- uniqueMetrics_spec_dedup.
  replace (length (uniqueMetrics (W ++ S)) - 10)%nat with 0%nat by lia.
  apply drop_0.
Qed.

Lemma merge_eq_nil W S : merge W S = [] ↔ W = [] ∧ S = [].
Proof.
  split; [|by intros [-> ->]].
  intros Hempty. apply app_eq_nil.
  destruct (W ++ S) as [|h r] eqn:Hws; [done|].
  pose proof (merge_length W S) as Hlen.
  rewrite Hempty, uniqueMetrics_spec_dedup, Hws in Hlen.
  simpl in Hlen. lia.
Qed.

Lemma foldl_merge_eq_nil Ss : ∀ W,
  foldl merge W Ss = [] ↔ W = [] ∧ Forall (λ S, S = []) Ss.
Proof.
  induction Ss as [|S Ss IH]; intros W; simpl.
  - split; [by intros ->|by intros [-> _]].
  - rewrite IH, merge_eq_nil, Forall_cons. tauto.
Qed.

(** X1. The merged window is empty only when the previous window and the
    response are both empty; so a window that holds a sample never becomes
    empty again, whatever responses are merged into it. *)
Theorem merge_empty_iff (W S : list Metrics) (Ss : list (list Metrics)) :
  (merge W S = [] ↔ W = [] ∧ S = []) ∧
  (W ≠ [] → foldl merge W Ss ≠ []).
Proof.
  split; [apply merge_eq_nil|].
  intros HW [HW' _]%foldl_merge_eq_nil. done.
Qed.

Lemma merge_empty_iff_witness :
  (merge [t1] [] = [] ↔ [t1] = [] ∧ @nil Metrics = []) ∧
  foldl merge [t1] [[]; [t1_fresh]; window10] ≠ [].
Proof.
  destruct (merge_empty_iff [t1] [] [[]; [t1_fresh]; window10]) as [H1 H2].
  split; [exact H1|]. apply H2. discriminate.
Defined.

(** X2. New samples always arrive at the end of the window: when the
    response holds at most 10 samples with pairwise distinct timestamps,
    none of them in the window, the merged window ends with the whole
    response in the order received. *)
Theorem merge_appends_new_samples (W S : list Metrics) :
  NoDup (timestamp <$> S) →
  Forall (λ m, timestamp m ∉ timestamp <$> W) S →
  (length S ≤ 10)%nat →
  S `suffix_of` merge W S.
Proof.
  intros Hnd Hfresh Hlen.
  rewrite merge_unfold, spec_dedup_fresh_tail by done.
  rewrite drop_app_le by (rewrite length_app; lia).
  by eexists.
Qed.

Lemma merge_appends_new_samples_witness :
  [t11; t0_fresh] `suffix_of` merge window10 [t11; t0_fresh].
Proof.
  apply (merge_appends_new_samples window10 [t11; t0_fresh]).
  - apply (bool_decide_unpack _). vm_compute. exact I.
  - apply (bool_decide_unpack _). vm_compute. exact I.
  - simpl. lia.
Defined.

(** X3. A response of 10 or more samples with pairwise distinct
    timestamps, none of them in the window, replaces the window entirely:
    the merged window is the last 10 samples of the response. *)
Theorem merge_replaced_by_large_response (W S : list Metrics) :
  NoDup (timestamp <$> S) →
  Forall (λ m, timestamp m ∉ timestamp <$> W) S →
  (10 ≤ length S)%nat →
  merge W S = drop (length S - 10) S.
Proof.
  intros Hnd Hfresh Hlen.
  rewrite merge_unfold, spec_dedup_fresh_tail by done.
  rewrite drop_app, length_app.
  rewrite drop_ge by lia. simpl. f_equal. lia.
Qed.

Lemma merge_replaced_by_large_response_witness :
  merge [t0_cached; t11] window10 = drop (length window10 - 10) window10.
Proof.
  apply (merge_replaced_by_large_response [t0_cached; t11] window10).
  - apply (bool_decide_unpack _). vm_compute. exact I.
  - apply (bool_decide_unpack _). vm_compute. exact I.
  - simpl. lia.
Defined.

(** X4. Polling an unchanged source is stable as long as nothing is cut
    off: when window and response together hold at most 10 distinct
    timestamps, merging the same response a second time changes
    nothing. *)
Theorem merge_same_response_twice (W S : list Metrics) :
  (length (uniqueMetrics (W ++ S)) ≤ 10)%nat →
  merge (merge W S) S = merge W S.
Proof.
  intros Hlen. rewrite (merge_short W S Hlen), uniqueMetrics_spec_dedup.
  rewrite uniqueMetrics_spec_dedup in Hlen.
  set (U := spec_dedup [] (W ++ S)) in *.
  rewrite merge_unfold, spec_dedup_fixed.
  - replace (length U - 10)%nat with 0%nat by lia. apply drop_0.
  - apply spec_dedup_NoDup.
  - intros t _. apply not_elem_of_nil.
  - apply Forall_forall. intros m Hm. right.
    assert (timestamp m ∈ timestamp <$> W ++ S) as Hin
      by (apply list_elem_of_fmap_2, elem_of_app; by right).
    by destruct (spec_dedup_covers _ [] _ Hin) as [?%elem_of_nil|?].
Qed.

Lemma merge_same_response_twice_witness :
  merge (merge [t1] [t1_fresh; t2]) [t1_fresh; t2] = merge [t1] [t1_fresh; t2].
Proof.
  apply (merge_same_response_twice [t1] [t1_fresh; t2]).
  vm_compute. lia.
Defined.

Lemma snoc_cases {A} (l : list A) : l = [] ∨ ∃ l' x, l = l' ++ [x].
Proof. induction l using rev_ind; eauto. Qed.

(** X5. A source that returns more than 10 distinct timestamps never lets
    the window settle: whatever the window, merging such a response gives
    a different window, also when the same response is merged again and
    again. *)
Theorem merge_large_response_never_stable (W S : list Metrics) :
  (10 < length (uniqueMetrics S))%nat →
  merge W S ≠ W.
Proof.
  intros Hbig Hfix.
  assert (NoDup (timestamp <$> W)) as HW by (rewrite <- Hfix; apply merge_NoDup).
  assert (length W ≤ 10)%nat as HlenW
    by (rewrite <- Hfix, merge_length; lia).
  rewrite uniqueMetrics_spec_dedup in Hbig.
  rewrite merge_unfold, spec_dedup_app, app_nil_r in Hfix.
  rewrite (spec_dedup_id W []) in Hfix
    by (done || intros t _; apply not_elem_of_nil).
  assert (∀ m, m ∈ spec_dedup (timestamp <$> W) S →
               timestamp m ∉ timestamp <$> W) as Hnew
    by (by intros m [Hm _]%spec_dedup_elem).
  destruct (snoc_cases (spec_dedup (timestamp <$> W) S)) as [HS'|(S' & x & HS')];
    rewrite HS' in Hfix, Hnew.
  - (* every timestamp of the response is already in the window *)
    assert (timestamp <$> spec_dedup [] S ⊆+ timestamp <$> W) as Hsub.
    { apply NoDup_submseteq; [apply spec_dedup_NoDup|].
      intros t (m & -> & Hm)%list_elem_of_fmap.
      assert (timestamp m ∈ timestamp <$> S) as HmS.
      { apply list_elem_of_fmap_2. eapply elem_of_sublist; [exact Hm|].
        apply spec_dedup_sublist. }
      destruct (spec_dedup_covers S (timestamp <$> W) _ HmS) as [Hin|Hin];
        [done|].
      rewrite HS' in Hin. by apply elem_of_nil in Hin. }
    apply submseteq_length in Hsub. rewrite !length_fmap in Hsub. lia.
  - rewrite app_assoc, drop_app_le in Hfix
      by (rewrite !length_app; simpl; lia).
    apply (Hnew x); [apply elem_of_app; right; left|].
    apply list_elem_of_fmap_2. rewrite <- Hfix.
    apply elem_of_app. right. left.
Qed.

Lemma merge_large_response_never_stable_witness :
  merge window10 (t0_cached :: window10) ≠ window10.
Proof.
  apply (merge_large_response_never_stable window10 (t0_cached :: window10)).
  vm_compute. lia.
Defined.

(** ** Histories of poll cycles *)

Lemma run_cycles_cons r rs c :
  run_cycles (r :: rs) c = run_cycles rs (fetchMetrics r c).
Proof. done. Qed.

Lemma run_cycles_metrics rs : ∀ c,
  metrics (run_cycles rs c) = foldl merge (metrics c) (payloads rs).
Proof.
  induction rs as [|r rs IH]; intros c; [done|].
  rewrite run_cycles_cons, IH. by destruct r.
Qed.

Lemma render_loading c : (render c).2 = Loading ↔ metrics c = [].
Proof. unfold render. simpl. by destruct (metrics c). Qed.

(** X6. Over any history of poll cycles the window is the left fold of
    the merge over the payloads of the cycles that succeeded: a failed
    cycle, wherever it falls in the history, contributes nothing to the
    window. *)
Theorem window_ignores_failures (rs : list response) (c : Component) :
  metrics (run_cycles rs c) = foldl merge (metrics c) (payloads rs) ∧
  metrics (run_cycles rs c)
  = metrics (run_cycles (filter (λ r, is_rejected r = false) rs) c).
Proof.
  split; [apply run_cycles_metrics|].
  rewrite !run_cycles_metrics. f_equal.
  induction rs as [|[d|] rs IH]; [done| |].
  - rewrite filter_cons_True by done. simpl. by rewrite IH.
  - by rewrite filter_cons_False by done.
Qed.

(** X7. After any history of poll cycles the error is the fixed message
    when at least one cycle of the history failed, and is what it was
    before when none did; from the initial state, the error is shown
    exactly when some cycle has failed. *)
Theorem error_iff_some_failure (rs : list response) (c : Component) :
  error (run_cycles rs c)
  = (if existsb is_rejected rs then Some "Error fetching data" else error c) ∧
  ((render (run_cycles rs initial)).1 = Some "Error fetching data"
   ↔ Exists (λ r, is_rejected r = true) rs).
Proof.
  assert (∀ c', error (run_cycles rs c')
    = if existsb is_rejected rs then Some "Error fetching data" else error c')
    as Herr.
  { induction rs as [|r rs IH]; intros c'; [done|].
    rewrite run_cycles_cons, IH.
    destruct r; simpl; [done|]. by destruct (existsb is_rejected rs). }
  split; [apply Herr|].
  unfold render. rewrite Herr. simpl.
  destruct (existsb is_rejected rs) eqn:Hex; simpl.
  - split; [intros _|done].
    apply existsb_exists in Hex as (r & Hr & Hrej).
    apply Exists_exists. exists r. split; [by apply list_elem_of_In|done].
  - split; [done|]. intros (r & Hr & Hrej)%Exists_exists.
    assert (existsb is_rejected rs = true) as Hex'; [|congruence].
    apply existsb_exists. exists r. split; [by apply list_elem_of_In|done].
Qed.

(** X8. Every state the component reaches holds a valid window: if the
    window is valid before a history of poll cycles, or at least one cycle
    of the history succeeds, then afterwards the timestamps are pairwise
    distinct and there are at most 10 entries. *)
Theorem reachable_window_valid (rs : list response) (c : Component) :
  valid_window (metrics c) ∨ Exists (λ r, is_rejected r = false) rs →
  valid_window (metrics (run_cycles rs c)).
Proof.
  revert c. induction rs as [|r rs IH]; intros c Hc.
  - destruct Hc as [Hc|Hc]; [done|inversion Hc].
  - rewrite run_cycles_cons. apply IH.
    destruct r as [d|]; simpl.
    + left. split; [apply merge_NoDup|].
      rewrite merge_length. lia.
    + destruct Hc as [Hc|Hc]; [by left|].
      right. by apply Exists_cons in Hc as [?|?].
Qed.

Lemma reachable_window_valid_witness :
  valid_window
    (metrics (run_cycles [Fulfilled window10; Rejected; Fulfilled [t11; t0_fresh]]
                initial)).
Proof.
  apply (reachable_window_valid
           [Fulfilled window10; Rejected; Fulfilled [t11; t0_fresh]] initial).
  left. split; [constructor|simpl; lia].
Defined.

(** X9. The loading line is shown exactly as long as no sample has been
    received: from the initial state, the body of the view is the loading
    line if and only if every cycle so far failed or returned an empty
    array; once the chart and table are shown they stay. *)
Theorem loading_iff_nothing_received (rs : list response) :
  (render (run_cycles rs initial)).2 = Loading
  ↔ Forall (λ S, S = []) (payloads rs).
Proof.
  rewrite render_loading, run_cycles_metrics, foldl_merge_eq_nil.
  simpl. tauto.
Qed.

(** ** The chart and the table *)

Lemma succ_parity (i : nat) :
  Z.of_nat (S i) mod 2 = 1 - Z.of_nat i mod 2.
Proof.
  pose proof (Z.div_mod (Z.of_nat i) 2).
  pose proof (Z.div_mod (Z.of_nat (S i)) 2).
  pose proof (Z.mod_pos_bound (Z.of_nat i) 2).
  pose proof (Z.mod_pos_bound (Z.of_nat (S i)) 2).
  lia.
Qed.

(** X10. The chart and the table show the same samples in the same order:
    the chart has a single series, its labels are the time cells of the
    table rows and its points are the price cells, one row per entry of
    the window. *)
Theorem chart_matches_table (toLocaleString : string → string)
    (ms : list Metrics) :
  labels (priceChartData toLocaleString ms)
  = cell_time <$> table_rows toLocaleString ms ∧
  data <$> datasets (priceChartData toLocaleString ms)
  = [cell_price <$> table_rows toLocaleString ms] ∧
  length (table_rows toLocaleString ms) = length ms.
Proof.
  unfold priceChartData, timestamps, btcPrices, table_rows. simpl.
  rewrite !fmap_imap, length_imap. split_and!; [| |done].
  - apply list_eq. intros i.
    rewrite list_lookup_fmap, list_lookup_imap. by destruct (ms !! i).
  - f_equal. apply list_eq. intros i.
    rewrite list_lookup_fmap, list_lookup_imap. by destruct (ms !! i).
Qed.

(** X11. The rows of the table carry pairwise distinct keys, the key of a
    row being its position, and their backgrounds alternate: two
    consecutive rows never have the same background, and the first row has
    the lighter one. *)
Theorem table_rows_keys_and_stripes (toLocaleString : string → string)
    (ms : list Metrics) :
  NoDup (key <$> table_rows toLocaleString ms) ∧
  (∀ i r, table_rows toLocaleString ms !! i = Some r → key r = Z.of_nat i) ∧
  (∀ r, table_rows toLocaleString ms !! 0%nat = Some r →
        row_background r = "#3b3b3b") ∧
  (∀ i r r', table_rows toLocaleString ms !! i = Some r →
             table_rows toLocaleString ms !! S i = Some r' →
             row_background r ≠ row_background r').
Proof.
  unfold table_rows. split_and!.
  - rewrite fmap_imap.
    rewrite (imap_ext _ (λ j _, Z.of_nat j)) by done.
    rewrite imap_seq_0. apply NoDup_fmap_2; [apply _|apply NoDup_seq].
  - intros i r Hr. rewrite list_lookup_imap in Hr.
    destruct (ms !! i); by simplify_eq/=.
  - intros r Hr. rewrite list_lookup_imap in Hr.
    destruct (ms !! 0%nat); by simplify_eq/=.
  - intros i r r' Hr Hr'. rewrite list_lookup_imap in Hr, Hr'.
    destruct (ms !! i), (ms !! S i); simplify_eq/=.
    rewrite succ_parity.
    pose proof (Z.mod_pos_bound (Z.of_nat i) 2).
    destruct (Z.of_nat i mod 2 =? 0) eqn:Hi.
    + apply Z.eqb_eq in Hi. rewrite Hi. simpl. discriminate.
    + apply Z.eqb_neq in Hi.
      replace (Z.of_nat i mod 2) with 1 by lia. simpl. discriminate.
Qed.

Lemma table_rows_keys_and_stripes_witness :
  ∃ r r', table_rows id window10 !! 3%nat = Some r ∧
          table_rows id window10 !! 4%nat = Some r' ∧
          key r = 3 ∧ row_background r ≠ row_background r'.
Proof.
  destruct (table_rows_keys_and_stripes id window10) as (_ & Hkey & _ & Halt).
  eexists _, _. split; [reflexivity|]. split; [reflexivity|].
  split; [exact (Hkey 3%nat _ eq_refl)|exact (Halt 3%nat _ _ eq_refl eq_refl)].
Defined.

(** ** The component next to other timers *)

Lemma filter_all {A} (P : A → Prop) `{∀ x, Decision (P x)} (l : list A) :
  Forall P l → filter P l = l.
Proof.
  induction 1 as [|x l Hx _ IH]; [done|].
  by rewrite filter_cons_True, IH.
Qed.

Lemma rearm_id now e : (rearm now e).1 = e.1.
Proof. unfold rearm. by destruct (due e.2 <=? now)%N. Qed.

Lemma rearm_cb now e : cb (rearm now e).2 = cb e.2.
Proof. unfold rearm. by destruct (due e.2 <=? now)%N. Qed.

Lemma fire_cb now e : Forall (λ x, x.2 = cb e.2) (fire now e).
Proof.
  unfold fire. destruct (due e.2 <=? now)%N; repeat constructor.
Qed.

Lemma ticks_ids (P : N → Prop) n : ∀ w,
  Forall (λ e, P e.1) (timers w) →
  Forall (λ e, P e.1) (timers (ticks n w)) ∧ next_id (ticks n w) = next_id w.
Proof.
  induction n as [|n IH] using N.peano_ind; intros w Hw; [done|].
  destruct (IH w Hw) as [Hids Hnext]. rewrite ticks_succ.
  split; [|done]. simpl. apply Forall_fmap.
  eapply Forall_impl; [exact Hids|]. intros e He. simpl. by rewrite rearm_id.
Qed.

(** One tick keeps two pages in step when the second has one more timer,
    carrying the component's callback. *)
Lemma tick_beside w wm x :
  clock wm = clock w → timers wm = timers w ++ [x] →
  cb x.2 = FetchMetrics → foreign_log wm = foreign_log w →
  clock (tick wm) = clock (tick w) ∧
  timers (tick wm) = timers (tick w) ++ [rearm (clock w + 1) x] ∧
  foreign_log (tick wm) = foreign_log (tick w).
Proof.
  intros Hclock Htimers Hcb Hlog. unfold foreign_log, tick in *. simpl.
  rewrite Hclock, Htimers, fmap_app, bind_app, !filter_app, Hlog.
  split_and!; [done|done|].
  assert (filter (λ e : N * callback, e.2 ≠ FetchMetrics)
            ([x] ≫= fire (clock w + 1)) = []) as ->; [|by rewrite app_nil_r].
  rewrite bind_cons, app_nil_r.
  apply elem_of_nil_inv. intros e [He Hin]%list_elem_of_filter.
  apply He. pose proof (fire_cb (clock w + 1) x) as Hfire.
  rewrite (proj1 (Forall_forall _ _) Hfire e Hin). done.
Qed.

Lemma ticks_beside n : ∀ w wm x,
  clock wm = clock w → timers wm = timers w ++ [x] →
  cb x.2 = FetchMetrics → foreign_log wm = foreign_log w →
  ∃ x', x'.1 = x.1 ∧ cb x'.2 = FetchMetrics ∧
    clock (ticks n wm) = clock (ticks n w) ∧
    timers (ticks n wm) = timers (ticks n w) ++ [x'] ∧
    foreign_log (ticks n wm) = foreign_log (ticks n w).
Proof.
  induction n as [|n IH] using N.peano_ind; intros w wm x Hclock Htimers Hcb Hlog.
  - by exists x.
  - destruct (IH w wm x Hclock Htimers Hcb Hlog)
      as (x' & Hid & Hcb' & Hclock' & Htimers' & Hlog').
    rewrite !ticks_succ.
    destruct (tick_beside _ _ _ Hclock' Htimers' Hcb' Hlog') as (? & ? & ?).
    eexists. split_and!; [| |done|done|done].
    + by rewrite rearm_id.
    + by rewrite rearm_cb.
Qed.

Lemma ticks_alike n : ∀ w w',
  clock w' = clock w → timers w' = timers w → foreign_log w' = foreign_log w →
  clock (ticks n w') = clock (ticks n w) ∧
  timers (ticks n w') = timers (ticks n w) ∧
  foreign_log (ticks n w') = foreign_log (ticks n w).
Proof.
  induction n as [|n IH] using N.peano_ind; intros w w' Hclock Htimers Hlog;
    [done|].
  destruct (IH w w' Hclock Htimers Hlog) as (Hc & Ht & Hl).
  rewrite !ticks_succ. unfold foreign_log, tick in *. simpl.
  by rewrite Hc, Ht, !filter_app, Hl.
Qed.

(** X12. Mounting and unmounting leaves the page ready for the next
    mount: however long the component was mounted and however long ago it
    was unmounted, no timer with its callback is left and every id in use
    is below the next id, which is what mounting asks for. *)
Theorem unmount_restores_unmounted (w : World) (n m : N) :
  unmounted w →
  unmounted (ticks m (cleanup (effect w).1 (ticks n (effect w).2))).
Proof.
  intros Hw.
  destruct (effect_polling w Hw) as (-> & Hpoll & _ & _).
  destruct (ticks_polling _ n _ _ Hpoll) as [d Hpoll'].
  destruct (cleanup_idle _ _ _ Hpoll') as [Hidle _].
  destruct (ticks_idle _ m _ Hidle) as [Hidle' _].
  assert (Forall (λ e, (e.1 < next_id w + 1)%N) (timers (effect w).2)) as Hids.
  { simpl. apply Forall_app. split.
    - eapply Forall_impl; [exact Hw|]. intros e [? _]. lia.
    - repeat constructor. simpl. lia. }
  destruct (ticks_ids (λ i, (i < next_id w + 1)%N) n _ Hids) as [Hids' Hnext].
  assert (Forall (λ e, (e.1 < next_id w + 1)%N)
            (timers (cleanup (next_id w) (ticks n (effect w).2)))) as Hids''.
  { simpl. apply Forall_forall. intros e [_ He]%list_elem_of_filter.
    by apply (proj1 (Forall_forall _ _) Hids'). }
  destruct (ticks_ids (λ i, (i < next_id w + 1)%N) m _ Hids'')
    as [Hids3 Hnext3].
  unfold unmounted. rewrite Hnext3.
  change (next_id (cleanup (next_id w) (ticks n (effect w).2)))
    with (next_id (ticks n (effect w).2)).
  rewrite Hnext.
  change (next_id (effect w).2) with (next_id w + 1)%N.
  apply Forall_forall. intros e He. split.
  - by apply (proj1 (Forall_forall _ _) Hids3).
  - by apply (proj1 (Forall_forall _ _) Hidle').
Qed.

Lemma unmount_restores_unmounted_witness :
  unmounted (ticks 30000 (cleanup (effect busy_page).1
                            (ticks 12000 (effect busy_page).2))).
Proof.
  apply (unmount_restores_unmounted busy_page 12000 30000).
  constructor; [split; [simpl; lia|discriminate]|constructor].
Defined.

(** X13. The component does not disturb the other timers of the page:
    after it has been mounted for any time and unmounted, the registered
    timers, the clock and the record of the other callbacks' invocations
    are exactly what they would be had the component never been
    mounted. *)
Theorem other_timers_undisturbed (w : World) (n m : N) :
  unmounted w →
  timers (ticks m (cleanup (effect w).1 (ticks n (effect w).2)))
  = timers (ticks (m + n) w) ∧
  clock (ticks m (cleanup (effect w).1 (ticks n (effect w).2)))
  = clock (ticks (m + n) w) ∧
  foreign_log (ticks m (cleanup (effect w).1 (ticks n (effect w).2)))
  = foreign_log (ticks (m + n) w).
Proof.
  intros Hw. rewrite ticks_add.
  assert (foreign_log (effect w).2 = foreign_log w) as Hlog.
  { unfold foreign_log. simpl. rewrite filter_app.
    rewrite filter_cons_False by (simpl; auto). by rewrite app_nil_r. }
  destruct (ticks_beside n w (effect w).2 _ eq_refl eq_refl eq_refl Hlog)
    as (x & Hid & Hcb & Hclock & Htimers & Hlog').
  assert (Forall (λ e, e.1 ≠ next_id w) (timers (ticks n w))) as Hids.
  { apply (ticks_ids (λ i, i ≠ next_id w)).
    eapply Forall_impl; [exact Hw|]. intros e [? _]. simpl. lia. }
  destruct (ticks_alike m (ticks n w)
              (cleanup (effect w).1 (ticks n (effect w).2))) as (? & ? & ?);
    [done| |done|done].
  unfold cleanup, clearInterval. cbn [timers].
  rewrite Htimers, filter_app, (filter_all _ _ Hids).
  rewrite filter_cons_False by (simpl in *; auto). by rewrite app_nil_r.
Qed.

Lemma other_timers_undisturbed_witness :
  timers (ticks 30000 (cleanup (effect busy_page).1 (ticks 12000 (effect busy_page).2)))
  = timers (ticks (30000 + 12000) busy_page) ∧
  clock (ticks 30000 (cleanup (effect busy_page).1 (ticks 12000 (effect busy_page).2)))
  = clock (ticks (30000 + 12000) busy_page) ∧
  foreign_log (ticks 30000 (cleanup (effect busy_page).1 (ticks 12000 (effect busy_page).2)))
  = foreign_log (ticks (30000 + 12000) busy_page).
Proof.
  apply (other_timers_undisturbed busy_page 12000 30000).
  constructor; [split; [simpl; lia|discriminate]|constructor].
Defined.

(** ** Eviction *)

Lemma merge_valid_unfold W S :
  NoDup (timestamp <$> W) →
  merge W S
  = drop (length W + length (spec_dedup (timestamp <$> W) S) - 10)
      (W ++ spec_dedup (timestamp <$> W) S).
Proof.
  intros HW. rewrite merge_unfold, spec_dedup_app, app_nil_r.
  rewrite (spec_dedup_id W []) by (done || intros t _; apply not_elem_of_nil).
  by rewrite length_app.
Qed.

(** X14. A window with pairwise distinct timestamps and at most 10
    entries never gets shorter: the merged window has at least as many
    entries, so a window that has reached 10 entries keeps 10. *)
Theorem merge_never_shrinks (W S : list Metrics) :
  NoDup (timestamp <$> W) → (length W ≤ 10)%nat →
  (length W ≤ length (merge W S))%nat.
Proof.
  intros HW Hlen. rewrite (merge_valid_unfold W S HW).
  rewrite length_drop, length_app. lia.
Qed.

Lemma merge_never_shrinks_witness :
  (length window10 ≤ length (merge window10 [t0_fresh; t11]))%nat.
Proof.
  apply (merge_never_shrinks window10 [t0_fresh; t11]).
  - apply (bool_decide_unpack _). vm_compute. exact I.
  - simpl. lia.
Defined.

(** X15. Eviction takes the oldest entries first: merging into a window
    with pairwise distinct timestamps keeps a suffix of that window, in
    place at the front, followed by samples of the response, in the order
    received, whose timestamps the window did not have. *)
Theorem merge_evicts_oldest_first (W S : list Metrics) :
  NoDup (timestamp <$> W) →
  ∃ k New, merge W S = drop k W ++ New ∧
    New `sublist_of` S ∧
    Forall (λ m, timestamp m ∉ timestamp <$> W) New.
Proof.
  intros HW. rewrite (merge_valid_unfold W S HW).
  set (S' := spec_dedup (timestamp <$> W) S).
  set (j := (length W + length S' - 10)%nat).
  exists j, (drop (j - length W) S'). split_and!.
  - apply drop_app.
  - etrans; [apply sublist_drop|apply spec_dedup_sublist].
  - apply Forall_forall. intros m Hm.
    eapply elem_of_sublist in Hm; [|apply sublist_drop].
    by apply spec_dedup_elem in Hm as [? _].
Qed.

Lemma merge_evicts_oldest_first_witness :
  ∃ k New, merge window10 [t1_fresh; t11; t0_fresh] = drop k window10 ++ New ∧
    New `sublist_of` [t1_fresh; t11; t0_fresh] ∧
    Forall (λ m, timestamp m ∉ timestamp <$> window10) New.
Proof.
  apply (merge_evicts_oldest_first window10 [t1_fresh; t11; t0_fresh]).
  apply (bool_decide_unpack _). vm_compute. exact I.
Defined.

(** ** One timer per mounted component *)

(** X16. While the component is mounted it has exactly one interval on the
    page, however much time has passed since the mount: firing re-arms
    the interval and never registers another. *)
Theorem mounted_has_one_timer (w : World) (n : N) :
  unmounted w →
  length (filter (λ e, cb e.2 = FetchMetrics) (timers (ticks n (effect w).2)))
  = 1%nat.
Proof.
  intros Hw.
  destruct (effect_polling w Hw) as (_ & Hpoll & _ & _).
  destruct (ticks_polling _ n _ _ Hpoll) as (d & T & -> & HT).
  rewrite filter_app, filter_cons_True by done.
  rewrite length_app. simpl.
  assert (filter (λ e : N * timer, cb e.2 = FetchMetrics) T = []) as ->; [|done].
  apply elem_of_nil_inv. intros e [He Hin]%list_elem_of_filter.
  by destruct (proj1 (Forall_forall _ _) HT e Hin).
Qed.

Lemma mounted_has_one_timer_witness :
  length (filter (λ e, cb e.2 = FetchMetrics)
            (timers (ticks 25000 (effect busy_page).2))) = 1%nat.
Proof.
  apply (mounted_has_one_timer busy_page 25000).
  constructor; [split; [simpl; lia|discriminate]|constructor].
Defined.

(** ** Requests in flight at teardown *)

Lemma continuation_fetchMetrics r c :
  apply_call (continuation r) c = fetchMetrics r c.
Proof. by destruct r. Qed.

Lemma run_cons e es p : run (e :: es) p = run es (step p e).
Proof. done. Qed.

Lemma run_live es : ∀ p id d,
  intervalId p = Some id → polling id d (world p) →
  Forall (λ e, e ≠ Unmount) es →
  intervalId (run es p) = Some id ∧ ∃ d', polling id d' (world (run es p)).
Proof.
  induction es as [|e es IH]; intros p id d Hid Hpoll Hes; [by eauto|].
  apply Forall_cons in Hes as [He Hes]. rewrite run_cons.
  destruct e as [|n|r|]; [| | |done].
  - simpl. rewrite Hid. by eapply IH.
  - destruct (ticks_polling id n d _ Hpoll) as [d' Hpoll'].
    by eapply (IH _ id d').
  - unfold step.
    destruct (settled p <? length (fetch_calls (world p)))%nat;
      by eapply IH.
Qed.

Lemma run_torn (id : N) es : ∀ p,
  intervalId p = None → idle id (world p) →
  Forall (λ e, e ≠ Mount) es →
  intervalId (run es p) = None ∧ idle id (world (run es p)) ∧
  fetch_calls (world (run es p)) = fetch_calls (world p) ∧
  ∃ late, setter_calls (run es p) = setter_calls p ++ late ∧
    late.*2 = continuation <$> take (in_flight p) (responses es) ∧
    Forall (λ c, c.1.2 = false) late.
Proof.
  induction es as [|e es IH]; intros p Hid Hidle Hes.
  - split_and!; [done..|]. exists []. rewrite app_nil_r.
    split_and!; [done| |done]. simpl. by rewrite take_nil.
  - apply Forall_cons in Hes as [He Hes]. rewrite run_cons.
    destruct e as [|n|r|]; [done| | |].
    + destruct (ticks_idle id n _ Hidle) as [Hidle' Hcalls].
      destruct (IH (step p (Elapse n)) Hid Hidle' Hes)
        as (? & ? & Hcalls' & late & ? & Hlate & ?).
      split_and!; [done|done|by rewrite Hcalls'|].
      exists late. split_and!; [done| |done].
      rewrite Hlate. unfold in_flight. simpl. by rewrite Hcalls.
    + unfold step.
      destruct (settled p <? length (fetch_calls (world p)))%nat eqn:Hlt.
      * apply Nat.ltb_lt in Hlt.
        edestruct (IH (mkPage (world p) (intervalId p) (S (settled p))
                         (setter_calls p ++
                            [(clock (world p),
                              bool_decide (is_Some (intervalId p)),
                              continuation r)])))
          as (? & ? & Hcalls' & late & Hcalls & Hlate & Hflags);
          [done|done|done|].
        split_and!; [done|done|done|].
        eexists (_ :: late). split_and!.
        -- rewrite Hcalls. simpl. by rewrite <- app_assoc.
        -- unfold in_flight in *. cbn [world settled] in *.
           rewrite fmap_cons, Hlate.
           change (responses (Settle r :: es)) with (r :: responses es).
           replace (length (fetch_calls (world p)) - settled p)%nat
             with (S (length (fetch_calls (world p)) - S (settled p))) by lia.
           done.
        -- constructor; [|done]. simpl. rewrite Hid.
           apply bool_decide_eq_false_2. by intros [? ?].
      * apply Nat.ltb_ge in Hlt.
        destruct (IH p Hid Hidle Hes) as (? & ? & ? & late & ? & Hlate & ?).
        split_and!; [done|done|done|].
        exists late. split_and!; [done| |done].
        rewrite Hlate. unfold in_flight.
        replace (length (fetch_calls (world p)) - settled p)%nat with 0%nat by lia.
        by rewrite !take_0.
    + simpl. rewrite Hid. by apply IH.
Qed.

(** C8, as it stands, fails in its last clause: the cleanup cancels the
    timer only.  A request that [fetchMetrics] issued before the teardown
    and that settles after it still runs its continuation, which calls
    [setMetrics] with the merging updater on the destroyed view. *)
Lemma merge_fires_after_teardown :
  intervalId (torn_down fresh_page [Elapse 1] [Elapse 1; Settle (Fulfilled [t1])])
  = None ∧
  timers (world (torn_down fresh_page [Elapse 1]
                   [Elapse 1; Settle (Fulfilled [t1])])) = [] ∧
  setter_calls (torn_down fresh_page [Elapse 1] [Elapse 1; Settle (Fulfilled [t1])])
  = [(7%N, false, SetMetrics [t1])] ∧
  metrics (apply_call (SetMetrics [t1]) initial) = merge [] [t1].
Proof. by split_and!. Qed.

(** C8, amended.  Mounting the component calls [fetchMetrics] at once and
    then at every multiple of 10 seconds after the mount, and at no other
    time.  The teardown cancels the timer, so that afterwards the
    component has no timer left and no further cycle is started, however
    long the page lives.  The requests still in flight at the teardown
    are not cancelled: each of them that settles afterwards makes its
    call, [setMetrics] with the merge for a response and [setError] for a
    failure, on the destroyed view; and these are the only calls made
    after the teardown. *)
Theorem poller_until_teardown (w : World) (k : nat) (r : N)
    (es_live es_after : list event) :
  unmounted w → (r < 10000)%N →
  Forall (λ e, e ≠ Unmount) es_live → Forall (λ e, e ≠ Mount) es_after →
  fetch_calls (ticks (10000 * N.of_nat k + r) (effect w).2)
  = fetch_calls w ++ ((λ j, clock w + 10000 * N.of_nat j)%N <$> seq 0 (S k)) ∧
  intervalId (torn_down w es_live es_after) = None ∧
  idle (effect w).1 (world (torn_down w es_live es_after)) ∧
  fetch_calls (world (torn_down w es_live es_after))
  = fetch_calls (world (lived w es_live)) ∧
  ∃ late,
    setter_calls (torn_down w es_live es_after)
    = setter_calls (lived w es_live) ++ late ∧
    late.*2
    = continuation <$> take (in_flight (lived w es_live)) (responses es_after) ∧
    Forall (λ c, c.1.2 = false) late.
Proof.
  intros Hw Hr Hlive Hafter.
  split; [apply (poller_schedule w k r 0 0 Hw Hr)|].
  destruct (effect_polling w Hw) as (Hid & Hpoll & _ & _).
  unfold torn_down. rewrite run_cons.
  set (p1 := lived w es_live).
  assert (intervalId p1 = Some (next_id w) ∧
          ∃ d, polling (next_id w) d (world p1)) as [Hid1 [d Hpoll1]].
  { unfold p1, lived. rewrite run_cons.
    eapply (run_live es_live (step (page_of w) Mount)); [|exact Hpoll|done].
    done. }
  destruct (cleanup_idle _ _ _ Hpoll1) as [Hidle Hcalls].
  assert (step p1 Unmount
          = mkPage (cleanup (next_id w) (world p1)) None (settled p1)
              (setter_calls p1)) as ->
    by (unfold step; by rewrite Hid1).
  rewrite Hid.
  edestruct (run_torn (next_id w) es_after
               (mkPage (cleanup (next_id w) (world p1)) None (settled p1)
                  (setter_calls p1)))
    as (? & ? & Hcalls' & late & ? & Hlate & ?); [done|done|done|].
  split_and!; [done|done|by rewrite Hcalls'|].
  exists late. split_and!; [done| |done].
  rewrite Hlate. unfold in_flight. simpl. by rewrite Hcalls.
Qed.

Lemma poller_until_teardown_witness :
  fetch_calls (ticks (10000 * N.of_nat 2 + 5000) (effect busy_page).2)
  = fetch_calls busy_page
    ++ ((λ j, clock busy_page + 10000 * N.of_nat j)%N <$> seq 0 3) ∧
  intervalId (torn_down busy_page [Elapse 12000; Settle (Fulfilled [t1])]
                [Elapse 500; Settle (Fulfilled [t2]); Settle Rejected;
                 Elapse 30000]) = None ∧
  idle (effect busy_page).1
    (world (torn_down busy_page [Elapse 12000; Settle (Fulfilled [t1])]
              [Elapse 500; Settle (Fulfilled [t2]); Settle Rejected;
               Elapse 30000])) ∧
  fetch_calls
    (world (torn_down busy_page [Elapse 12000; Settle (Fulfilled [t1])]
              [Elapse 500; Settle (Fulfilled [t2]); Settle Rejected;
               Elapse 30000]))
  = fetch_calls (world (lived busy_page [Elapse 12000; Settle (Fulfilled [t1])])) ∧
  ∃ late,
    setter_calls
      (torn_down busy_page [Elapse 12000; Settle (Fulfilled [t1])]
         [Elapse 500; Settle (Fulfilled [t2]); Settle Rejected; Elapse 30000])
    = setter_calls (lived busy_page [Elapse 12000; Settle (Fulfilled [t1])])
      ++ late ∧
    late.*2
    = continuation <$>
        take (in_flight (lived busy_page [Elapse 12000; Settle (Fulfilled [t1])]))
          (responses [Elapse 500; Settle (Fulfilled [t2]); Settle Rejected;
                      Elapse 30000]) ∧
    Forall (λ c, c.1.2 = false) late.
Proof.
  apply (poller_until_teardown busy_page 2 5000
           [Elapse 12000; Settle (Fulfilled [t1])]
           [Elapse 500; Settle (Fulfilled [t2]); Settle Rejected; Elapse 30000]).
  - constructor; [split; [simpl; lia|discriminate]|constructor].
  - lia.
  - repeat constructor; discriminate.
  - repeat constructor; discriminate.
Defined.

Example busy_page_late_calls :
  setter_calls
    (torn_down busy_page [Elapse 12000; Settle (Fulfilled [t1])]
       [Elapse 500; Settle (Fulfilled [t2]); Settle Rejected; Elapse 30000])
  = [(13200%N, true, SetMetrics [t1]); (13700%N, false, SetMetrics [t2])].
Proof. vm_compute. reflexivity. Qed.

Example steady_state_keeps_cached :
  entries_for "t10" (merge window10 [t10_fresh; t11])
  = [sample "t10" 800009 60090].
Proof. reflexivity. Qed.
